(** * Explorer: the path classifier of angr/surveyors/explorer.py

    A shallow embedding of [Explorer] (its constructor, [_arg_to_set],
    [path_comparator], [done], [_match] and [filter_path]) together with
    the properties of its classification policy.

    The mutable [self] of the Python class is a record threaded through a
    small state monad; Python sets are [gset], the [collections.Counter]
    is a [gmap] read with a default of zero.  Calls to the logger
    ([l.debug]) do not touch the explorer and are left out. *)

From Stdlib Require Import ZArith List Bool Lia String.
From stdpp Require Import base decidable countable gmap sets fin_sets list strings.
Import ListNotations.

Local Open Scope Z_scope.

(** ** Data model *)

(** What a Python set built in [filter_path] may hold: an integer address,
    or a string (the class name put there on the non-IRSB branch). *)
Inductive key :=
  | KAddr (a : Z)
  | KName (s : string).

#[global] Instance key_eq_dec : EqDecision key.
Proof. solve_decision. Defined.

Definition key_to_sum (k : key) : Z + string :=
  match k with KAddr a => inl a | KName s => inr s end.

Definition key_of_sum (x : Z + string) : key :=
  match x with inl a => KAddr a | inr s => KName s end.

#[global] Instance key_countable : Countable key.
Proof.
  apply (inj_countable' key_to_sum key_of_sum).
  intros [a|s]; reflexivity.
Defined.

(** [p.last_run]: a [simuvex.SimIRSB] exposes [imark_addrs()], any other
    run only its [addr]. *)
Inductive SimRun :=
  | SimIRSB (addr : Z) (imark_addrs : list Z)
  | SimOther (addr : Z).

Definition isinstance_SimIRSB (r : SimRun) : bool :=
  match r with SimIRSB _ _ => true | SimOther _ => false end.

Definition run_addr (r : SimRun) : Z :=
  match r with SimIRSB a _ => a | SimOther a => a end.

(** The read contract of a path: the attributes the explorer touches. *)
Record Path := mkPath {
  addr_backtrace : list Z;
  last_run : SimRun;
  last_addr : Z;
  class_name : string;            (* p.__class__.__name__ *)
  detect_loops : Z -> Z
}.

(** [self._find], [self._avoid], [self._restrict] after [_arg_to_set]:
    a set, or the callable itself. *)
Inductive criterion :=
  | CSet (s : gset key)
  | CFun (f : Path -> bool).

(** The shapes of argument [_arg_to_set] tells apart. *)
Inductive criterion_arg :=
  | ArgInt (a : Z)
  | ArgFunction (f : Path -> bool)
  | ArgIterable (l : list key).

Definition _arg_to_set (s : criterion_arg) : criterion :=
  match s with
  | ArgInt a => CSet {[ KAddr a ]}
  | ArgFunction f => CFun f
  | ArgIterable l => CSet (list_to_set l)
  end.

(** The attributes of an [Explorer] instance. [active] is inherited from
    [Surveyor]. *)
Record Explorer := mkExplorer {
  active : list Path;
  _instruction_counter : gmap key Z;
  _find : criterion;
  _avoid : criterion;
  _restrict : criterion;
  _max_repeats : Z;
  _max_depth : Z;
  _min_depth : Z;
  found : list Path;
  avoided : list Path;
  deviating : list Path;
  looping : list Path;
  _num_find : option Z;
  _num_avoid : option Z;
  _num_deviate : option Z;
  _num_loop : option Z
}.

(** Keyword arguments of [Explorer.__init__], and the defaults its
    signature gives them. *)
Record init_args := mkArgs {
  arg_find : criterion_arg;
  arg_avoid : criterion_arg;
  arg_restrict : criterion_arg;
  arg_min_depth : Z;
  arg_max_depth : Z;
  arg_max_repeats : Z;
  arg_num_find : option Z;
  arg_num_avoid : option Z;
  arg_num_deviate : option Z;
  arg_num_loop : option Z
}.

Definition default_args : init_args :=
  {| arg_find := ArgIterable [];
     arg_avoid := ArgIterable [];
     arg_restrict := ArgIterable [];
     arg_min_depth := 0;
     arg_max_depth := 100;
     arg_max_repeats := 10;
     arg_num_find := Some 1;
     arg_num_avoid := None;
     arg_num_deviate := Some 1;
     arg_num_loop := None |}.

(** [Explorer.__init__]; [starts] stands for the active paths that
    [Surveyor.__init__] sets up. *)
Definition __init__ (starts : list Path) (a : init_args) : Explorer :=
  {| active := starts;
     _instruction_counter := ∅;
     _find := _arg_to_set (arg_find a);
     _avoid := _arg_to_set (arg_avoid a);
     _restrict := _arg_to_set (arg_restrict a);
     _max_repeats := arg_max_repeats a;
     _max_depth := arg_max_depth a;
     _min_depth := arg_min_depth a;
     found := [];
     avoided := [];
     deviating := [];
     looping := [];
     _num_find := arg_num_find a;
     _num_avoid := arg_num_avoid a;
     _num_deviate := arg_num_deviate a;
     _num_loop := arg_num_loop a |}.

(** ** The counter *)

(** [counter[k]]: a missing key reads as zero. *)
Definition counter_get (c : gmap key Z) (k : key) : Z :=
  default 0 (c !! k).

(** [counter[k] += 1] *)
Definition counter_incr (k : key) (c : gmap key Z) : gmap key Z :=
  <[ k := counter_get c k + 1 ]> c.

(** ** Updates of single attributes *)

Definition set_counter (c : gmap key Z) (e : Explorer) : Explorer :=
  {| active := active e; _instruction_counter := c;
     _find := _find e; _avoid := _avoid e; _restrict := _restrict e;
     _max_repeats := _max_repeats e; _max_depth := _max_depth e;
     _min_depth := _min_depth e;
     found := found e; avoided := avoided e;
     deviating := deviating e; looping := looping e;
     _num_find := _num_find e; _num_avoid := _num_avoid e;
     _num_deviate := _num_deviate e; _num_loop := _num_loop e |}.

Definition set_active (a : list Path) (e : Explorer) : Explorer :=
  {| active := a; _instruction_counter := _instruction_counter e;
     _find := _find e; _avoid := _avoid e; _restrict := _restrict e;
     _max_repeats := _max_repeats e; _max_depth := _max_depth e;
     _min_depth := _min_depth e;
     found := found e; avoided := avoided e;
     deviating := deviating e; looping := looping e;
     _num_find := _num_find e; _num_avoid := _num_avoid e;
     _num_deviate := _num_deviate e; _num_loop := _num_loop e |}.

Definition found_append (p : Path) (e : Explorer) : Explorer :=
  {| active := active e; _instruction_counter := _instruction_counter e;
     _find := _find e; _avoid := _avoid e; _restrict := _restrict e;
     _max_repeats := _max_repeats e; _max_depth := _max_depth e;
     _min_depth := _min_depth e;
     found := found e ++ [p]; avoided := avoided e;
     deviating := deviating e; looping := looping e;
     _num_find := _num_find e; _num_avoid := _num_avoid e;
     _num_deviate := _num_deviate e; _num_loop := _num_loop e |}.

Definition avoided_append (p : Path) (e : Explorer) : Explorer :=
  {| active := active e; _instruction_counter := _instruction_counter e;
     _find := _find e; _avoid := _avoid e; _restrict := _restrict e;
     _max_repeats := _max_repeats e; _max_depth := _max_depth e;
     _min_depth := _min_depth e;
     found := found e; avoided := avoided e ++ [p];
     deviating := deviating e; looping := looping e;
     _num_find := _num_find e; _num_avoid := _num_avoid e;
     _num_deviate := _num_deviate e; _num_loop := _num_loop e |}.

Definition deviating_append (p : Path) (e : Explorer) : Explorer :=
  {| active := active e; _instruction_counter := _instruction_counter e;
     _find := _find e; _avoid := _avoid e; _restrict := _restrict e;
     _max_repeats := _max_repeats e; _max_depth := _max_depth e;
     _min_depth := _min_depth e;
     found := found e; avoided := avoided e;
     deviating := deviating e ++ [p]; looping := looping e;
     _num_find := _num_find e; _num_avoid := _num_avoid e;
     _num_deviate := _num_deviate e; _num_loop := _num_loop e |}.

Definition looping_append (p : Path) (e : Explorer) : Explorer :=
  {| active := active e; _instruction_counter := _instruction_counter e;
     _find := _find e; _avoid := _avoid e; _restrict := _restrict e;
     _max_repeats := _max_repeats e; _max_depth := _max_depth e;
     _min_depth := _min_depth e;
     found := found e; avoided := avoided e;
     deviating := deviating e; looping := looping e ++ [p];
     _num_find := _num_find e; _num_avoid := _num_avoid e;
     _num_deviate := _num_deviate e; _num_loop := _num_loop e |}.

(** ** A state monad over the explorer *)

Definition M (A : Type) : Type := Explorer -> A * Explorer.

Definition ret {A} (a : A) : M A := fun e => (a, e).

Definition bind {A B} (m : M A) (k : A -> M B) : M B :=
  fun e => let '(a, e') := m e in k a e'.

Definition gets {A} (f : Explorer -> A) : M A := fun e => (f e, e).

Definition modify (f : Explorer -> Explorer) : M unit := fun e => (tt, f e).

Notation "x <- m ;; k" := (bind m (fun x => k))
  (at level 100, m at level 99, right associativity).
Notation "m ;;; k" := (bind m (fun _ => k))
  (at level 100, right associativity).

(** [for x in xs: body x] *)
Fixpoint for_each {A} (xs : list A) (body : A -> M unit) : M unit :=
  match xs with
  | [] => ret tt
  | x :: xs' => body x ;;; for_each xs' body
  end.

(** ** The methods *)

Definition len {A} (l : list A) : Z := Z.of_nat (length l).

(** [path_comparator] *)
Definition path_comparator (e : Explorer) (x y : Path) : Z :=
  counter_get (_instruction_counter e) (KAddr (last_addr x))
  - counter_get (_instruction_counter e) (KAddr (last_addr y)).

(** [n is not None and size >= n] *)
Definition reached (n : option Z) (size : Z) : bool :=
  match n with
  | Some k => k <=? size
  | None => false
  end.

(** The [done] property. *)
Definition done : M bool :=
  a <- gets active ;;
  if (len a =? 0) then ret true else
  n <- gets _num_find ;; b <- gets found ;;
  if reached n (len b) then ret true else
  n <- gets _num_avoid ;; b <- gets avoided ;;
  if reached n (len b) then ret true else
  n <- gets _num_deviate ;; b <- gets deviating ;;
  if reached n (len b) then ret true else
  n <- gets _num_loop ;; b <- gets looping ;;
  if reached n (len b) then ret true else
  ret false.

(** [_match] *)
Definition _match (criteria : criterion) (path : Path) (imark_set : gset key) : bool :=
  match criteria with
  | CSet s =>
      let intersection := imark_set ∩ s in
      0 <? Z.of_nat (size intersection)
  | CFun f => f path
  end.

(** The set [filter_path] builds from the last run of the path. *)
Definition imark_set_of (p : Path) : gset key :=
  match last_run p with
  | SimIRSB _ marks => list_to_set (map KAddr marks)
  | SimOther a => {[ KAddr a; KName (class_name p) ]}
  end.

(** [type(self._restrict) is not set or len(self._restrict) > 0] *)
Definition restrict_in_force (c : criterion) : bool :=
  match c with
  | CSet s => 0 <? Z.of_nat (size s)
  | CFun _ => true
  end.

(** [filter_path] *)
Definition filter_path (p : Path) : M bool :=
  min_depth <- gets _min_depth ;;
  if len (addr_backtrace p) <? min_depth then ret true else
  let imark_set := imark_set_of p in
  for_each (elements imark_set)
    (fun addr => modify (fun e =>
       set_counter (counter_incr addr (_instruction_counter e)) e)) ;;;
  avoid <- gets _avoid ;;
  if _match avoid p imark_set then
    modify (avoided_append p) ;;; ret false
  else
  find <- gets _find ;;
  if _match find p imark_set then
    modify (found_append p) ;;; ret false
  else
  restrict <- gets _restrict ;;
  if restrict_in_force restrict && negb (_match restrict p imark_set) then
    modify (deviating_append p) ;;; ret false
  else
  max_repeats <- gets _max_repeats ;;
  if max_repeats <=? detect_loops p max_repeats then
    modify (looping_append p) ;;; ret false
  else
  ret true.

(** ** Running the explorer *)

(** What the scheduler does to an explorer between two evaluations of
    [done]: it classifies a path, or it replaces the active list. *)
Inductive event :=
  | Classify (p : Path)
  | Reschedule (a : list Path).

Definition perform (e : Explorer) (ev : event) : Explorer :=
  match ev with
  | Classify p => snd (filter_path p e)
  | Reschedule a => set_active a e
  end.

Definition run (evs : list event) (e : Explorer) : Explorer :=
  foldl perform e evs.

(** One of the four bucket thresholds is configured and reached. *)
Definition threshold_met (e : Explorer) : bool :=
  reached (_num_find e) (len (found e))
  || reached (_num_avoid e) (len (avoided e))
  || reached (_num_deviate e) (len (deviating e))
  || reached (_num_loop e) (len (looping e)).

(** The counter after [for addr in imark_set: counter[addr] += 1]. *)
Definition record (imark_set : gset key) (c : gmap key Z) : gmap key Z :=
  foldl (fun c k => counter_incr k c) c (elements imark_set).

(** ** Sample paths and explorers *)

Definition block_path (marks : list Z) (depth : nat) (loops : Z) : Path :=
  {| addr_backtrace := repeat 0 depth;
     last_run := SimIRSB (List.hd 0 marks) marks;
     last_addr := List.hd 0 marks;
     class_name := "Path";
     detect_loops := fun _ => loops |}.

Definition atomic_path (a : Z) (depth : nat) (loops : Z) : Path :=
  {| addr_backtrace := repeat 0 depth;
     last_run := SimOther a;
     last_addr := a;
     class_name := "Path";
     detect_loops := fun _ => loops |}.

Definition with_find (f : criterion_arg) (a : init_args) : init_args :=
  {| arg_find := f; arg_avoid := arg_avoid a; arg_restrict := arg_restrict a;
     arg_min_depth := arg_min_depth a; arg_max_depth := arg_max_depth a;
     arg_max_repeats := arg_max_repeats a; arg_num_find := arg_num_find a;
     arg_num_avoid := arg_num_avoid a; arg_num_deviate := arg_num_deviate a;
     arg_num_loop := arg_num_loop a |}.

Definition with_avoid (f : criterion_arg) (a : init_args) : init_args :=
  {| arg_find := arg_find a; arg_avoid := f; arg_restrict := arg_restrict a;
     arg_min_depth := arg_min_depth a; arg_max_depth := arg_max_depth a;
     arg_max_repeats := arg_max_repeats a; arg_num_find := arg_num_find a;
     arg_num_avoid := arg_num_avoid a; arg_num_deviate := arg_num_deviate a;
     arg_num_loop := arg_num_loop a |}.

Definition with_restrict (f : criterion_arg) (a : init_args) : init_args :=
  {| arg_find := arg_find a; arg_avoid := arg_avoid a; arg_restrict := f;
     arg_min_depth := arg_min_depth a; arg_max_depth := arg_max_depth a;
     arg_max_repeats := arg_max_repeats a; arg_num_find := arg_num_find a;
     arg_num_avoid := arg_num_avoid a; arg_num_deviate := arg_num_deviate a;
     arg_num_loop := arg_num_loop a |}.

Definition with_min_depth (d : Z) (a : init_args) : init_args :=
  {| arg_find := arg_find a; arg_avoid := arg_avoid a;
     arg_restrict := arg_restrict a;
     arg_min_depth := d; arg_max_depth := arg_max_depth a;
     arg_max_repeats := arg_max_repeats a; arg_num_find := arg_num_find a;
     arg_num_avoid := arg_num_avoid a; arg_num_deviate := arg_num_deviate a;
     arg_num_loop := arg_num_loop a |}.

Definition with_max_repeats (r : Z) (a : init_args) : init_args :=
  {| arg_find := arg_find a; arg_avoid := arg_avoid a;
     arg_restrict := arg_restrict a;
     arg_min_depth := arg_min_depth a; arg_max_depth := arg_max_depth a;
     arg_max_repeats := r; arg_num_find := arg_num_find a;
     arg_num_avoid := arg_num_avoid a; arg_num_deviate := arg_num_deviate a;
     arg_num_loop := arg_num_loop a |}.

(** An explorer looking for address 0x1000, and a path whose last run is
    not an IRSB and sits at 0x1000. *)
Definition finder : Explorer :=
  __init__ [block_path [1] 0 0] (with_find (ArgInt 4096) default_args).

Definition atomic_1000 : Path := atomic_path 4096 0 0.

(** A caller who restricts the analysis to 0x3000 and passes nothing for
    [num_deviate]; one active path, and a path stepping to 0x4000. *)
Definition restricted : Explorer :=
  __init__ [block_path [12288] 0 0] (with_restrict (ArgInt 12288) default_args).

Definition at_4000 : Path := block_path [16384] 0 0.

(** Scenario B of the specification: 0x2000 is both to avoid and to
    find, and the path steps into the block at 0x2000. *)
Definition both : Explorer :=
  __init__ [block_path [1] 0 0]
    (with_avoid (ArgInt 8192) (with_find (ArgInt 8192) default_args)).

Definition at_2000 : Path := block_path [8192] 0 0.

(** Scenario E: a floor of five runs and a path of depth two that sits
    on the address to find. *)
Definition floor5 : Explorer :=
  __init__ [block_path [1] 0 0]
    (with_min_depth 5 (with_find (ArgInt 4096) default_args)).

Definition shallow : Path := block_path [4096] 2 20.

(** Scenario D: at most three repeats, and a path that reports three. *)
Definition repeats3 : Explorer :=
  __init__ [block_path [1] 0 0] (with_max_repeats 3 default_args).

Definition spinning : Path := block_path [20480] 0 3.

(** An explorer avoiding 0x1004 and a block that lists 0x1000 twice. *)
Definition avoider : Explorer :=
  __init__ [block_path [1] 0 0] (with_avoid (ArgInt 4100) default_args).

Definition two_marks : Path := block_path [4096; 4100; 4096] 0 0.

(** Scenario F, second half: two paths found with [num_find = 2], then
    more paths are classified and the active list is emptied and
    refilled. *)
Definition hit : Path := block_path [4096; 4100] 0 0.

Definition two_found : Explorer :=
  run [Classify hit; Classify hit]
    (__init__ [block_path [1] 0 0]
       {| arg_find := ArgInt 4096; arg_avoid := ArgIterable [];
          arg_restrict := ArgIterable []; arg_min_depth := 0;
          arg_max_depth := 100; arg_max_repeats := 10;
          arg_num_find := Some 2; arg_num_avoid := None;
          arg_num_deviate := None; arg_num_loop := None |}).

Definition later : list event :=
  [Classify (block_path [8192] 0 0); Reschedule [];
   Reschedule [block_path [8196] 1 0]; Classify (atomic_path 8196 1 30)].

(** ** Buckets *)

(** The four terminal buckets of an explorer. *)
Definition buckets (e : Explorer)
  : list Path * list Path * list Path * list Path :=
  (found e, avoided e, deviating e, looping e).

(** [p] was appended to exactly one bucket, the other three are as they
    were. *)
Definition appended_to_one (p : Path) (e e' : Explorer) : Prop :=
  (found e' = found e ++ [p] /\ avoided e' = avoided e
   /\ deviating e' = deviating e /\ looping e' = looping e)
  \/ (found e' = found e /\ avoided e' = avoided e ++ [p]
      /\ deviating e' = deviating e /\ looping e' = looping e)
  \/ (found e' = found e /\ avoided e' = avoided e
      /\ deviating e' = deviating e ++ [p] /\ looping e' = looping e)
  \/ (found e' = found e /\ avoided e' = avoided e
      /\ deviating e' = deviating e /\ looping e' = looping e ++ [p]).

(** ** Configuration, driving loops and tallies *)

(** The attributes that [__init__] sets and no method assigns again. *)
Definition same_config (e e' : Explorer) : Prop :=
  _find e' = _find e /\ _avoid e' = _avoid e /\ _restrict e' = _restrict e
  /\ _max_repeats e' = _max_repeats e /\ _max_depth e' = _max_depth e
  /\ _min_depth e' = _min_depth e
  /\ _num_find e' = _num_find e /\ _num_avoid e' = _num_avoid e
  /\ _num_deviate e' = _num_deviate e /\ _num_loop e' = _num_loop e.

(** [not (len(p.addr_backtrace) < min_depth)] *)
Definition past_gate (min_depth : Z) (p : Path) : bool :=
  negb (len (addr_backtrace p) <? min_depth).

(** The number of classified paths of [evs] that got past the depth gate
    with [k] in their step set. *)
Fixpoint visits (min_depth : Z) (k : key) (evs : list event) : Z :=
  match evs with
  | [] => 0
  | Classify p :: evs' =>
      (if past_gate min_depth p && bool_decide (k ∈ imark_set_of p)
       then 1 else 0)
      + visits min_depth k evs'
  | Reschedule _ :: evs' => visits min_depth k evs'
  end.

(** [[self.filter_path(p) for p in ps]] *)
Fixpoint filter_each (ps : list Path) : M (list bool) :=
  match ps with
  | [] => ret []
  | p :: ps' =>
      r <- filter_path p ;;
      rs <- filter_each ps' ;;
      ret (r :: rs)
  end.

(** The number of [False] among the results. *)
Definition rejected (rs : list bool) : Z :=
  len (List.filter negb rs).

(** The number of paths in the four terminal buckets. *)
Definition bucketed (e : Explorer) : Z :=
  len (found e) + len (avoided e) + len (deviating e) + len (looping e).

(** What filing in each bucket says about a path, under the
    configuration of [e]. *)
Definition avoided_ok (e : Explorer) (p : Path) : Prop :=
  past_gate (_min_depth e) p = true
  /\ _match (_avoid e) p (imark_set_of p) = true.

Definition found_ok (e : Explorer) (p : Path) : Prop :=
  past_gate (_min_depth e) p = true
  /\ _match (_avoid e) p (imark_set_of p) = false
  /\ _match (_find e) p (imark_set_of p) = true.

Definition deviating_ok (e : Explorer) (p : Path) : Prop :=
  past_gate (_min_depth e) p = true
  /\ _match (_avoid e) p (imark_set_of p) = false
  /\ _match (_find e) p (imark_set_of p) = false
  /\ restrict_in_force (_restrict e) = true
  /\ _match (_restrict e) p (imark_set_of p) = false.

Definition looping_ok (e : Explorer) (p : Path) : Prop :=
  past_gate (_min_depth e) p = true
  /\ _match (_avoid e) p (imark_set_of p) = false
  /\ _match (_find e) p (imark_set_of p) = false
  /\ restrict_in_force (_restrict e)
      && negb (_match (_restrict e) p (imark_set_of p)) = false
  /\ _max_repeats e <= detect_loops p (_max_repeats e).

Definition filed_rightly (e : Explorer) : Prop :=
  Forall (avoided_ok e) (avoided e)
  /\ Forall (found_ok e) (found e)
  /\ Forall (deviating_ok e) (deviating e)
  /\ Forall (looping_ok e) (looping e).

(** More sample paths. *)
Definition stray_spinning : Path := block_path [16384] 0 50.

Definition empty_block : Path := block_path [] 0 0.

Definition at_1000 : Path := block_path [4096] 0 0.

(** ** Basic facts *)

Lemma set_counter_id e : set_counter (_instruction_counter e) e = e.
Proof. destruct e; reflexivity. Qed.

Lemma counter_get_incr k k' c :
  counter_get (counter_incr k c) k'
  = counter_get c k' + (if decide (k' = k) then 1 else 0).
Proof.
  unfold counter_incr, counter_get.
  destruct (decide (k' = k)) as [->|Hne].
  - rewrite lookup_insert_eq. reflexivity.
  - rewrite lookup_insert_ne by congruence. simpl. lia.
Qed.

Lemma counter_get_foldl l : forall c k,
  NoDup l ->
  counter_get (foldl (fun c k => counter_incr k c) c l) k
  = counter_get c k + (if decide (k ∈ l) then 1 else 0).
Proof.
  induction l as [|x l IH]; intros c k Hnd; simpl.
  - destruct (decide (k ∈ [])) as [Hin|_]; [inversion Hin | lia].
  - apply NoDup_cons in Hnd as [Hx Hnd].
    rewrite IH by assumption. rewrite counter_get_incr.
    destruct (decide (k = x)) as [->|Hne].
    + destruct (decide (x ∈ l)); [contradiction|].
      destruct (decide (x ∈ x :: l)) as [_|Hn]; [lia|].
      exfalso. apply Hn. left.
    + destruct (decide (k ∈ l)) as [Hin|Hnin].
      * destruct (decide (k ∈ x :: l)) as [_|Hn]; [lia|].
        exfalso. apply Hn. right. assumption.
      * destruct (decide (k ∈ x :: l)) as [Hin'|_]; [|lia].
        exfalso. apply elem_of_cons in Hin' as [?|?]; contradiction.
Qed.

Lemma counter_get_record X c k :
  counter_get (record X c) k
  = counter_get c k + (if decide (k ∈ X) then 1 else 0).
Proof.
  unfold record. rewrite counter_get_foldl by apply NoDup_elements.
  destruct (decide (k ∈ elements X)) as [Hin|Hnin];
    destruct (decide (k ∈ X)) as [HX|HX]; try reflexivity;
    exfalso; rewrite elem_of_elements in *; contradiction.
Qed.

Lemma for_each_incr l : forall e,
  for_each l (fun addr => modify (fun e =>
      set_counter (counter_incr addr (_instruction_counter e)) e)) e
  = (tt, set_counter
           (foldl (fun c k => counter_incr k c) (_instruction_counter e) l) e).
Proof.
  induction l as [|x l IH]; intros e; simpl.
  - unfold ret. rewrite set_counter_id. reflexivity.
  - unfold bind, modify. rewrite IH. reflexivity.
Qed.

(** [filter_path] as one case analysis on the initial state. *)
Lemma filter_path_eq p e :
  filter_path p e =
  if len (addr_backtrace p) <? _min_depth e then (true, e) else
  let e1 :=
    set_counter (record (imark_set_of p) (_instruction_counter e)) e in
  if _match (_avoid e) p (imark_set_of p) then (false, avoided_append p e1)
  else if _match (_find e) p (imark_set_of p) then (false, found_append p e1)
  else if restrict_in_force (_restrict e)
          && negb (_match (_restrict e) p (imark_set_of p))
       then (false, deviating_append p e1)
  else if _max_repeats e <=? detect_loops p (_max_repeats e)
       then (false, looping_append p e1)
  else (true, e1).
Proof.
  unfold filter_path, bind, gets, ret, modify. cbn.
  destruct (len (addr_backtrace p) <? _min_depth e); [reflexivity|].
  rewrite for_each_incr. fold (record (imark_set_of p) (_instruction_counter e)).
  cbn.
  destruct (_match (_avoid e) p (imark_set_of p)); [reflexivity|]. cbn.
  destruct (_match (_find e) p (imark_set_of p)); [reflexivity|]. cbn.
  destruct (restrict_in_force (_restrict e)
            && negb (_match (_restrict e) p (imark_set_of p))); [reflexivity|].
  cbn.
  destruct (_max_repeats e <=? detect_loops p (_max_repeats e)); reflexivity.
Qed.

Lemma match_set_elem s p X :
  _match (CSet s) p X = true <-> exists k, k ∈ X /\ k ∈ s.
Proof.
  unfold _match. rewrite Z.ltb_lt. split.
  - intros Hpos.
    destruct (set_choose_or_empty (X ∩ s)) as [[k Hk]|Hempty].
    + exists k. apply elem_of_intersection in Hk. exact Hk.
    + apply size_empty_iff in Hempty. rewrite Hempty in Hpos. simpl in Hpos. lia.
  - intros (k & HX & Hs).
    assert (Hne : size (X ∩ s) ≠ 0%nat).
    { intros Hz. apply size_empty_iff in Hz.
      assert (Hin : k ∈ X ∩ s) by (apply elem_of_intersection; split; assumption).
      rewrite Hz in Hin. apply not_elem_of_empty in Hin. exact Hin. }
    lia.
Qed.

(** ** The step set of a non-block run *)

Module AtomicStep.

(** C1, as the claim states it, fails: the step set that [filter_path]
    builds for a path whose last run is no IRSB is not the singleton of
    the run's address.  It also holds the class name of the path, that
    name gets a count of its own in the instruction counter, and a
    criterion set holding the name is matched by it. *)
Lemma step_set_not_singleton :
  isinstance_SimIRSB (last_run atomic_1000) = false
  /\ imark_set_of atomic_1000 ≠ {[ KAddr (run_addr (last_run atomic_1000)) ]}
  /\ KName "Path" ∈ imark_set_of atomic_1000
  /\ counter_get
       (_instruction_counter (snd (filter_path atomic_1000 finder))) (KName "Path")
     = 1
  /\ _match (CSet {[ KName "Path" ]}) atomic_1000 (imark_set_of atomic_1000) = true.
Proof.
  split; [reflexivity|]. split.
  - intros Heq.
    assert (Hin : KName "Path" ∈ imark_set_of atomic_1000).
    { unfold imark_set_of. simpl. set_solver. }
    rewrite Heq in Hin. apply elem_of_singleton in Hin. discriminate.
  - split; [unfold imark_set_of; simpl; set_solver|].
    split; vm_compute; reflexivity.
Qed.

(** C1 (amended): for a path whose last run is no IRSB, the step set
    used for matching and for the counter has exactly the run's address
    and the class name of the path.  A criterion set is matched iff it
    holds one of the two, so a set of integer addresses is matched iff
    it holds the run's address.  In [filter_path], past the depth gate,
    the count of the address and the count of the class name both go up
    by one and no other count changes, and with a set as avoid criterion
    the path is appended to [avoided] iff that set holds the address or
    the class name. *)
Theorem step_set_of_atomic_run (p : Path) :
  isinstance_SimIRSB (last_run p) = false ->
  imark_set_of p = {[ KAddr (run_addr (last_run p)); KName (class_name p) ]}
  /\ (forall s,
        _match (CSet s) p (imark_set_of p) = true
        <-> KAddr (run_addr (last_run p)) ∈ s \/ KName (class_name p) ∈ s)
  /\ (forall s,
        (forall n, KName n ∉ s) ->
        _match (CSet s) p (imark_set_of p) = true
        <-> KAddr (run_addr (last_run p)) ∈ s)
  /\ (forall e,
        _min_depth e <= len (addr_backtrace p) ->
        counter_get (_instruction_counter (snd (filter_path p e)))
          (KAddr (run_addr (last_run p)))
        = counter_get (_instruction_counter e)
            (KAddr (run_addr (last_run p))) + 1
        /\ counter_get (_instruction_counter (snd (filter_path p e)))
             (KName (class_name p))
           = counter_get (_instruction_counter e) (KName (class_name p)) + 1
        /\ (forall k,
              k ≠ KAddr (run_addr (last_run p)) ->
              k ≠ KName (class_name p) ->
              counter_get (_instruction_counter (snd (filter_path p e))) k
              = counter_get (_instruction_counter e) k))
  /\ (forall e s,
        _min_depth e <= len (addr_backtrace p) ->
        _avoid e = CSet s ->
        avoided (snd (filter_path p e)) = avoided e ++ [p]
        <-> KAddr (run_addr (last_run p)) ∈ s \/ KName (class_name p) ∈ s).
Proof.
  intros Hrun.
  assert (Hset : imark_set_of p
                 = {[ KAddr (run_addr (last_run p)); KName (class_name p) ]}).
  { unfold imark_set_of. destruct (last_run p); [discriminate|reflexivity]. }
  assert (Hmatch : forall s,
            _match (CSet s) p (imark_set_of p) = true
            <-> KAddr (run_addr (last_run p)) ∈ s \/ KName (class_name p) ∈ s).
  { intros s. rewrite match_set_elem, Hset. split.
    - intros (k & Hk & Hs).
      apply elem_of_union in Hk as [Hk|Hk];
        apply elem_of_singleton in Hk; rewrite Hk in Hs;
        [left|right]; assumption.
    - intros [Hs|Hs]; eexists; (split; [|exact Hs]);
        apply elem_of_union; [left|right]; apply elem_of_singleton;
        reflexivity. }
  assert (Hcount : forall e k,
            _min_depth e <= len (addr_backtrace p) ->
            counter_get (_instruction_counter (snd (filter_path p e))) k
            = counter_get (_instruction_counter e) k
              + (if decide (k ∈ imark_set_of p) then 1 else 0)).
  { intros e k Hdepth. apply Z.ltb_ge in Hdepth.
    rewrite <- counter_get_record, filter_path_eq, Hdepth. cbv zeta.
    destruct (_match (_avoid e) p (imark_set_of p)); [reflexivity|].
    destruct (_match (_find e) p (imark_set_of p)); [reflexivity|].
    destruct (restrict_in_force (_restrict e)
              && negb (_match (_restrict e) p (imark_set_of p)));
      [reflexivity|].
    destruct (_max_repeats e <=? detect_loops p (_max_repeats e));
      reflexivity. }
  split; [exact Hset|]. split; [exact Hmatch|]. split.
  { intros s Hnames. rewrite Hmatch. split.
    - intros [Hs|Hs]; [assumption|]. exfalso. exact (Hnames _ Hs).
    - intros Hs. left. assumption. }
  split.
  - intros e Hdepth. rewrite !Hcount by exact Hdepth. rewrite Hset.
    split; [|split].
    + destruct (decide (KAddr (run_addr (last_run p))
                        ∈ ({[ KAddr (run_addr (last_run p));
                              KName (class_name p) ]} : gset key)))
        as [_|Hn]; [reflexivity|].
      exfalso. apply Hn, elem_of_union. left.
      apply elem_of_singleton. reflexivity.
    + destruct (decide (KName (class_name p)
                        ∈ ({[ KAddr (run_addr (last_run p));
                              KName (class_name p) ]} : gset key)))
        as [_|Hn]; [reflexivity|].
      exfalso. apply Hn, elem_of_union. right.
      apply elem_of_singleton. reflexivity.
    + intros k Hk1 Hk2. rewrite Hcount by exact Hdepth. rewrite Hset.
      destruct (decide (k ∈ ({[ KAddr (run_addr (last_run p));
                                 KName (class_name p) ]} : gset key)))
        as [Hin|_]; [|lia].
      exfalso. apply elem_of_union in Hin as [Hin|Hin];
        apply elem_of_singleton in Hin; contradiction.
  - intros e s Hdepth Havoid. rewrite <- Hmatch, <- Havoid.
    assert (Hneq : avoided e ≠ avoided e ++ [p]).
    { intros Heq. apply (f_equal (@length Path)) in Heq.
      rewrite length_app in Heq. simpl in Heq. lia. }
    apply Z.ltb_ge in Hdepth. rewrite filter_path_eq, Hdepth. cbv zeta.
    destruct (_match (_avoid e) p (imark_set_of p)).
    { simpl. split; reflexivity. }
    destruct (_match (_find e) p (imark_set_of p));
      [simpl; split; [intros H; contradiction | discriminate]|].
    destruct (restrict_in_force (_restrict e)
              && negb (_match (_restrict e) p (imark_set_of p)));
      [simpl; split; [intros H; contradiction | discriminate]|].
    destruct (_max_repeats e <=? detect_loops p (_max_repeats e));
      simpl; (split; [intros H; contradiction | discriminate]).
Qed.

Lemma step_set_of_atomic_run_witness :
  isinstance_SimIRSB (last_run atomic_1000) = false
  /\ imark_set_of atomic_1000 = {[ KAddr 4096; KName "Path" ]}
  /\ counter_get
       (_instruction_counter (snd (filter_path atomic_1000 finder)))
       (KName "Path")
     = 1.
Proof.
  split; [reflexivity|].
  destruct (step_set_of_atomic_run atomic_1000) as (Hset & _ & _ & Hcount & _).
  - reflexivity.
  - split; [exact Hset|].
    destruct (Hcount finder) as (_ & Hname & _).
    + vm_compute. discriminate.
    + exact Hname.
Defined.

End AtomicStep.

(** ** Defaults of the constructor *)

Module Defaults.

(** C2: the signature of [__init__] gives [num_deviate] the default 1,
    where the docstring of the constructor says "default: infinite".
    With that default a single deviating path makes [done] true while a
    path is still active and no other threshold is reached. *)
Theorem default_num_deviate_is_one :
  arg_num_deviate default_args = Some 1
  /\ _num_deviate restricted = Some 1
  /\ fst (done restricted) = false
  /\ (let e' := snd (filter_path at_4000 restricted) in
      active e' ≠ []
      /\ found e' = [] /\ avoided e' = [] /\ looping e' = []
      /\ deviating e' = [at_4000]
      /\ fst (done e') = true).
Proof.
  split; [reflexivity|]. split; [reflexivity|].
  split; [vm_compute; reflexivity|].
  cbv zeta. split; [vm_compute; discriminate|].
  repeat split; vm_compute; reflexivity.
Qed.

End Defaults.

(** ** Classification *)

Module Classification.

(** C3: a path that passes the depth gate and matches both the avoid and
    the find criterion is appended to [avoided]; [found] stays as it
    was, and [filter_path] returns [False]. *)
Theorem avoid_before_find (p : Path) (e : Explorer) :
  _min_depth e <= len (addr_backtrace p) ->
  _match (_avoid e) p (imark_set_of p) = true ->
  _match (_find e) p (imark_set_of p) = true ->
  fst (filter_path p e) = false
  /\ avoided (snd (filter_path p e)) = avoided e ++ [p]
  /\ found (snd (filter_path p e)) = found e.
Proof.
  intros Hdepth Havoid _. rewrite filter_path_eq.
  apply Z.ltb_ge in Hdepth. rewrite Hdepth. cbv zeta. rewrite Havoid.
  repeat split.
Qed.

Lemma avoid_before_find_witness :
  fst (filter_path at_2000 both) = false
  /\ avoided (snd (filter_path at_2000 both)) = avoided both ++ [at_2000]
  /\ found (snd (filter_path at_2000 both)) = found both.
Proof.
  apply (avoid_before_find at_2000 both).
  - vm_compute. discriminate.
  - vm_compute. reflexivity.
  - vm_compute. reflexivity.
Defined.

(** C5: a path whose backtrace is shorter than [min_depth] is kept
    ([filter_path] returns [True]) and the explorer is left exactly as it
    was: no count and no bucket changes, whatever the path would match. *)
Theorem min_depth_exemption (p : Path) (e : Explorer) :
  len (addr_backtrace p) < _min_depth e ->
  filter_path p e = (true, e).
Proof.
  intros Hshort. rewrite filter_path_eq.
  apply Z.ltb_lt in Hshort. rewrite Hshort. reflexivity.
Qed.

Lemma min_depth_exemption_witness :
  _match (_find floor5) shallow (imark_set_of shallow) = true
  /\ filter_path shallow floor5 = (true, floor5).
Proof.
  split; [vm_compute; reflexivity|].
  apply (min_depth_exemption shallow floor5).
  vm_compute. reflexivity.
Defined.

(** C6: with the empty set as restrict criterion the restrict check
    never fires: [deviating] is left as it was by every call, and the
    call returns [True] exactly when the path is under the depth floor or
    passes the avoid, the find and then the loop check. *)
Theorem restrict_vacuity (p : Path) (e : Explorer) :
  _restrict e = CSet ∅ ->
  deviating (snd (filter_path p e)) = deviating e
  /\ fst (filter_path p e)
     = (len (addr_backtrace p) <? _min_depth e)
       || (negb (_match (_avoid e) p (imark_set_of p))
           && negb (_match (_find e) p (imark_set_of p))
           && negb (_max_repeats e <=? detect_loops p (_max_repeats e))).
Proof.
  intros Hrestrict. rewrite filter_path_eq, Hrestrict.
  assert (Hoff : restrict_in_force (CSet ∅) = false) by reflexivity.
  rewrite Hoff. cbn [andb].
  destruct (len (addr_backtrace p) <? _min_depth e); [split; reflexivity|].
  cbv zeta.
  destruct (_match (_avoid e) p (imark_set_of p)); [split; reflexivity|].
  destruct (_match (_find e) p (imark_set_of p)); [split; reflexivity|].
  destruct (_max_repeats e <=? detect_loops p (_max_repeats e));
    split; reflexivity.
Qed.

Lemma restrict_vacuity_witness :
  deviating (snd (filter_path at_4000 finder)) = []
  /\ fst (filter_path at_4000 finder) = true.
Proof.
  destruct (restrict_vacuity at_4000 finder) as [Hdev Hret].
  - reflexivity.
  - split; [exact Hdev|]. rewrite Hret. vm_compute. reflexivity.
Defined.

(** C7: a path that passes the depth gate, matches neither avoid nor
    find, does not violate the restriction and reports at least
    [max_repeats] repeats is appended to [looping], and [filter_path]
    returns [False]. *)
Theorem loop_threshold (p : Path) (e : Explorer) :
  _min_depth e <= len (addr_backtrace p) ->
  _match (_avoid e) p (imark_set_of p) = false ->
  _match (_find e) p (imark_set_of p) = false ->
  restrict_in_force (_restrict e)
    && negb (_match (_restrict e) p (imark_set_of p)) = false ->
  _max_repeats e <= detect_loops p (_max_repeats e) ->
  fst (filter_path p e) = false
  /\ looping (snd (filter_path p e)) = looping e ++ [p]
  /\ found (snd (filter_path p e)) = found e
  /\ avoided (snd (filter_path p e)) = avoided e
  /\ deviating (snd (filter_path p e)) = deviating e.
Proof.
  intros Hdepth Havoid Hfind Hrestrict Hloop. rewrite filter_path_eq.
  apply Z.ltb_ge in Hdepth. apply Z.leb_le in Hloop.
  rewrite Hdepth. cbv zeta. rewrite Havoid, Hfind, Hrestrict, Hloop.
  repeat split.
Qed.

Lemma loop_threshold_witness :
  fst (filter_path spinning repeats3) = false
  /\ looping (snd (filter_path spinning repeats3)) = [spinning].
Proof.
  destruct (loop_threshold spinning repeats3) as (Hret & Hloop & _).
  - vm_compute. discriminate.
  - vm_compute. reflexivity.
  - vm_compute. reflexivity.
  - vm_compute. reflexivity.
  - vm_compute. discriminate.
  - split; [exact Hret|exact Hloop].
Defined.

End Classification.

(** ** The instruction counter *)

Module Counter.

(** C8: for a path that passes the depth gate, every element of its step
    set has its count raised by exactly one and every other count is
    left alone; the new counter is fixed by the step set and the old
    counter alone (the loop over the step set runs ahead of the four
    checks), so it is the same whichever way the path is classified. *)
Theorem counted_once (p : Path) (e : Explorer) :
  _min_depth e <= len (addr_backtrace p) ->
  _instruction_counter (snd (filter_path p e))
  = record (imark_set_of p) (_instruction_counter e)
  /\ forall k,
       counter_get (_instruction_counter (snd (filter_path p e))) k
       = counter_get (_instruction_counter e) k
         + (if decide (k ∈ imark_set_of p) then 1 else 0).
Proof.
  intros Hdepth.
  assert (Hc : _instruction_counter (snd (filter_path p e))
               = record (imark_set_of p) (_instruction_counter e)).
  { rewrite filter_path_eq. apply Z.ltb_ge in Hdepth. rewrite Hdepth.
    cbv zeta.
    destruct (_match (_avoid e) p (imark_set_of p)); [reflexivity|].
    destruct (_match (_find e) p (imark_set_of p)); [reflexivity|].
    destruct (restrict_in_force (_restrict e)
              && negb (_match (_restrict e) p (imark_set_of p)));
      [reflexivity|].
    destruct (_max_repeats e <=? detect_loops p (_max_repeats e));
      reflexivity. }
  split; [exact Hc|]. intros k. rewrite Hc. apply counter_get_record.
Qed.

Lemma counted_once_witness :
  fst (filter_path two_marks avoider) = false
  /\ counter_get
       (_instruction_counter (snd (filter_path two_marks avoider))) (KAddr 4096)
     = 1
  /\ counter_get
       (_instruction_counter (snd (filter_path two_marks avoider))) (KAddr 4100)
     = 1
  /\ counter_get
       (_instruction_counter (snd (filter_path two_marks avoider))) (KAddr 4104)
     = 0.
Proof.
  destruct (counted_once two_marks avoider) as [_ Hget].
  - vm_compute. discriminate.
  - split; [vm_compute; reflexivity|].
    rewrite !Hget. repeat split; vm_compute; reflexivity.
Defined.

End Counter.

(** ** Buckets *)

Module Buckets.

Lemma app_one_neq {A} (l : list A) (x : A) : l ++ [x] ≠ l.
Proof.
  intros Heq. apply (f_equal (@length A)) in Heq.
  rewrite length_app in Heq. simpl in Heq. lia.
Qed.

Lemma appended_changes p e e' :
  appended_to_one p e e' -> buckets e' ≠ buckets e.
Proof.
  unfold buckets.
  intros [(H & _)|[(_ & H & _)|[(_ & _ & H & _)|(_ & _ & _ & H)]]] Heq;
    inversion Heq as [[Hf Ha Hd Hl]]; rewrite H in *;
    eapply app_one_neq; eassumption.
Qed.

(** The outcome of one call, bucket by bucket. *)
Lemma filter_path_buckets p e :
  (fst (filter_path p e) = true /\ buckets (snd (filter_path p e)) = buckets e)
  \/ (fst (filter_path p e) = false
      /\ appended_to_one p e (snd (filter_path p e))).
Proof.
  rewrite filter_path_eq. unfold appended_to_one, buckets.
  destruct (len (addr_backtrace p) <? _min_depth e); [left; split; reflexivity|].
  cbv zeta.
  destruct (_match (_avoid e) p (imark_set_of p)).
  { right. split; [reflexivity|]. right. left. repeat split. }
  destruct (_match (_find e) p (imark_set_of p)).
  { right. split; [reflexivity|]. left. repeat split. }
  destruct (restrict_in_force (_restrict e)
            && negb (_match (_restrict e) p (imark_set_of p))).
  { right. split; [reflexivity|]. right. right. left. repeat split. }
  destruct (_max_repeats e <=? detect_loops p (_max_repeats e)).
  { right. split; [reflexivity|]. right. right. right. repeat split. }
  left. split; reflexivity.
Qed.

(** C10: one call of [filter_path] returns [True] iff it leaves the four
    buckets as they were; otherwise it returns [False] and has appended
    the path to exactly one bucket, the other three being unchanged. *)
Theorem one_bucket_per_call (p : Path) (e : Explorer) :
  (fst (filter_path p e) = true
   <-> buckets (snd (filter_path p e)) = buckets e)
  /\ ((fst (filter_path p e) = true
       /\ buckets (snd (filter_path p e)) = buckets e)
      \/ (fst (filter_path p e) = false
          /\ appended_to_one p e (snd (filter_path p e)))).
Proof.
  split; [|apply filter_path_buckets].
  destruct (filter_path_buckets p e) as [[Hret Hsame]|[Hret Happ]].
  - split; intros _; assumption.
  - split.
    + intros Htrue. rewrite Htrue in Hret. discriminate.
    + intros Hsame. exfalso. exact (appended_changes _ _ _ Happ Hsame).
Qed.

End Buckets.

(** ** Termination *)

Module Termination.

Lemma reached_iff n size :
  reached n size = true <-> exists k, n = Some k /\ k <= size.
Proof.
  destruct n as [k|]; simpl.
  - rewrite Z.leb_le. split.
    + intros Hk. exists k. split; [reflexivity|assumption].
    + intros (k' & Heq & Hk). inversion Heq. subst. assumption.
  - split; [discriminate|]. intros (k & Heq & _). discriminate.
Qed.

Lemma len_zero_iff {A} (l : list A) : (len l =? 0) = true <-> l = [].
Proof.
  unfold len. rewrite Z.eqb_eq. destruct l; simpl; split; try reflexivity;
    try discriminate; lia.
Qed.

(** [done] as a boolean expression over the state. *)
Lemma done_eq e :
  done e = ((len (active e) =? 0) || threshold_met e, e).
Proof.
  unfold done, threshold_met, bind, gets, ret.
  destruct (len (active e) =? 0); [reflexivity|].
  destruct (reached (_num_find e) (len (found e))); [reflexivity|].
  destruct (reached (_num_avoid e) (len (avoided e))); [reflexivity|].
  destruct (reached (_num_deviate e) (len (deviating e))); [reflexivity|].
  destruct (reached (_num_loop e) (len (looping e))); reflexivity.
Qed.

(** C4: [done] is true iff the active list is empty or one of the four
    thresholds is a number that the length of its bucket has reached; a
    threshold of [None] is reached by no length; and evaluating [done]
    leaves the explorer as it was. *)
Theorem done_iff (e : Explorer) :
  (fst (done e) = true
   <-> active e = []
       \/ (exists n, _num_find e = Some n /\ n <= len (found e))
       \/ (exists n, _num_avoid e = Some n /\ n <= len (avoided e))
       \/ (exists n, _num_deviate e = Some n /\ n <= len (deviating e))
       \/ (exists n, _num_loop e = Some n /\ n <= len (looping e)))
  /\ (forall size, reached None size = false)
  /\ snd (done e) = e.
Proof.
  rewrite done_eq. cbn [fst snd]. split; [|split; reflexivity].
  unfold threshold_met.
  rewrite !orb_true_iff, len_zero_iff, !reached_iff. tauto.
Qed.

(** Every bucket only grows under one event. *)
Lemma perform_grows e ev :
  len (found e) <= len (found (perform e ev))
  /\ len (avoided e) <= len (avoided (perform e ev))
  /\ len (deviating e) <= len (deviating (perform e ev))
  /\ len (looping e) <= len (looping (perform e ev)).
Proof.
  destruct ev as [p|a]; simpl; [|lia].
  destruct (Buckets.filter_path_buckets p e) as [[_ Hsame]|[_ Happ]].
  - unfold buckets in Hsame. inversion Hsame as [[Hf Ha Hd Hl]].
    rewrite Hf, Ha, Hd, Hl. lia.
  - unfold len.
    destruct Happ as [(Hf & Ha & Hd & Hl)|[(Hf & Ha & Hd & Hl)
                     |[(Hf & Ha & Hd & Hl)|(Hf & Ha & Hd & Hl)]]];
      rewrite Hf, Ha, Hd, Hl, ?length_app; simpl; lia.
Qed.

(** The thresholds are part of the configuration: no event changes them. *)
Lemma perform_config e ev :
  _num_find (perform e ev) = _num_find e
  /\ _num_avoid (perform e ev) = _num_avoid e
  /\ _num_deviate (perform e ev) = _num_deviate e
  /\ _num_loop (perform e ev) = _num_loop e.
Proof.
  destruct ev as [p|a]; simpl; [|repeat split].
  rewrite filter_path_eq.
  destruct (len (addr_backtrace p) <? _min_depth e); [repeat split|].
  cbv zeta.
  destruct (_match (_avoid e) p (imark_set_of p)); [repeat split|].
  destruct (_match (_find e) p (imark_set_of p)); [repeat split|].
  destruct (restrict_in_force (_restrict e)
            && negb (_match (_restrict e) p (imark_set_of p)));
    [repeat split|].
  destruct (_max_repeats e <=? detect_loops p (_max_repeats e));
    repeat split.
Qed.

Lemma reached_mono n a b : a <= b -> reached n a = true -> reached n b = true.
Proof.
  destruct n as [k|]; simpl; [|discriminate].
  rewrite !Z.leb_le. lia.
Qed.

Lemma threshold_met_perform e ev :
  threshold_met e = true -> threshold_met (perform e ev) = true.
Proof.
  unfold threshold_met. rewrite !orb_true_iff.
  destruct (perform_grows e ev) as (Hf & Ha & Hd & Hl).
  destruct (perform_config e ev) as (Cf & Ca & Cd & Cl).
  rewrite Cf, Ca, Cd, Cl.
  intros [[[H|H]|H]|H]; eauto using reached_mono.
Qed.

Lemma threshold_met_run evs : forall e,
  threshold_met e = true -> threshold_met (run evs e) = true.
Proof.
  induction evs as [|ev evs IH]; intros e Hmet; simpl; [assumption|].
  apply IH. apply threshold_met_perform. assumption.
Qed.

(** C9: once a configured threshold is reached by its bucket, [done] is
    true then and after every further sequence of classification calls
    (and of changes to the active list): the thresholds are fixed and
    the four buckets only grow. *)
Theorem done_stays_true (e : Explorer) (evs : list event) :
  threshold_met e = true ->
  fst (done e) = true /\ fst (done (run evs e)) = true.
Proof.
  intros Hmet. rewrite !done_eq. cbn [fst].
  rewrite (threshold_met_run evs e Hmet), Hmet, !orb_true_r.
  split; reflexivity.
Qed.

Lemma done_stays_true_witness :
  active (run later two_found) ≠ []
  /\ fst (done two_found) = true
  /\ fst (done (run later two_found)) = true.
Proof.
  split; [vm_compute; discriminate|].
  apply (done_stays_true two_found later).
  vm_compute. reflexivity.
Defined.

End Termination.

(** ** Criteria built by [_arg_to_set] *)

Module Criteria.

(** A criterion given as one integer matches a step set exactly when the
    set covers that address; whatever else the step set holds plays no
    role. *)
Theorem single_address_matches (a : Z) (p : Path) (X : gset key) :
  _match (_arg_to_set (ArgInt a)) p X = true <-> KAddr a ∈ X.
Proof.
  simpl _arg_to_set. rewrite match_set_elem. split.
  - intros (k & HX & Hk). apply elem_of_singleton in Hk. rewrite <- Hk.
    exact HX.
  - intros HX. exists (KAddr a). split; [exact HX|].
    apply elem_of_singleton. reflexivity.
Qed.

(** A criterion given as a collection matches a step set exactly when
    some listed element is in the set: order and repetitions in the
    collection are irrelevant, and the empty collection matches
    nothing. *)
Theorem collection_matches (l : list key) (p : Path) (X : gset key) :
  (_match (_arg_to_set (ArgIterable l)) p X = true
   <-> exists k, k ∈ l /\ k ∈ X)
  /\ _match (_arg_to_set (ArgIterable [])) p X = false.
Proof.
  assert (Hiff : forall l',
            _match (_arg_to_set (ArgIterable l')) p X = true
            <-> exists k, k ∈ l' /\ k ∈ X).
  { intros l'. simpl _arg_to_set. rewrite match_set_elem. split.
    - intros (k & HX & Hk). exists k. split; [|exact HX].
      apply elem_of_list_to_set in Hk. exact Hk.
    - intros (k & Hl & HX). exists k. split; [exact HX|].
      apply elem_of_list_to_set. exact Hl. }
  split; [apply Hiff|].
  destruct (_match (_arg_to_set (ArgIterable [])) p X) eqn:Hm; [|reflexivity].
  apply Hiff in Hm as (k & Hk & _). inversion Hk.
Qed.

(** A block that carries no instruction marks has an empty step set: it
    matches no set criterion, and classifying it leaves every count as
    it was. *)
Theorem empty_block_is_invisible (p : Path) (e : Explorer) (a : Z) :
  last_run p = SimIRSB a [] ->
  (forall s, _match (CSet s) p (imark_set_of p) = false)
  /\ _instruction_counter (snd (filter_path p e)) = _instruction_counter e.
Proof.
  intros Hrun.
  assert (Hset : imark_set_of p = ∅).
  { unfold imark_set_of. rewrite Hrun. reflexivity. }
  split.
  - intros s. destruct (_match (CSet s) p (imark_set_of p)) eqn:Hm;
      [|reflexivity].
    apply match_set_elem in Hm as (k & Hk & _). rewrite Hset in Hk.
    apply not_elem_of_empty in Hk. contradiction.
  - rewrite filter_path_eq, Hset.
    assert (Hrec : record ∅ (_instruction_counter e) = _instruction_counter e).
    { unfold record. rewrite elements_empty. reflexivity. }
    rewrite Hrec, set_counter_id.
    destruct (len (addr_backtrace p) <? _min_depth e); [reflexivity|].
    cbv zeta.
    destruct (_match (_avoid e) p ∅); [reflexivity|].
    destruct (_match (_find e) p ∅); [reflexivity|].
    destruct (restrict_in_force (_restrict e)
              && negb (_match (_restrict e) p ∅)); [reflexivity|].
    destruct (_max_repeats e <=? detect_loops p (_max_repeats e));
      reflexivity.
Qed.

Lemma empty_block_is_invisible_witness :
  _match (_restrict restricted) empty_block (imark_set_of empty_block) = false
  /\ _instruction_counter (snd (filter_path empty_block restricted)) = ∅.
Proof.
  destruct (empty_block_is_invisible empty_block restricted 0) as [Hm Hc].
  - reflexivity.
  - split; [apply Hm | exact Hc].
Defined.

End Criteria.

(** ** The remaining outcomes of [filter_path] *)

Module Outcomes.

(** Split [filter_path p e] into its six ways out, keeping the outcome of
    every check as an equation. *)
Ltac ways_out p e :=
  rewrite ?(filter_path_eq p e);
  destruct (len (addr_backtrace p) <? _min_depth e) eqn:Hgate;
  [| cbv zeta;
     destruct (_match (_avoid e) p (imark_set_of p)) eqn:Havoid;
     [| destruct (_match (_find e) p (imark_set_of p)) eqn:Hfind;
        [| destruct (restrict_in_force (_restrict e)
                     && negb (_match (_restrict e) p (imark_set_of p)))
             eqn:Hrestrict;
           [| destruct (_max_repeats e <=? detect_loops p (_max_repeats e))
                eqn:Hloop ]]]].

(** A path past the depth gate that matches find and not avoid is
    appended to [found] and [filter_path] returns [False], whether or not
    it also leaves the restricted addresses or loops; the other buckets
    are unchanged. *)
Theorem found_when_matched (p : Path) (e : Explorer) :
  _min_depth e <= len (addr_backtrace p) ->
  _match (_avoid e) p (imark_set_of p) = false ->
  _match (_find e) p (imark_set_of p) = true ->
  fst (filter_path p e) = false
  /\ found (snd (filter_path p e)) = found e ++ [p]
  /\ avoided (snd (filter_path p e)) = avoided e
  /\ deviating (snd (filter_path p e)) = deviating e
  /\ looping (snd (filter_path p e)) = looping e.
Proof.
  intros Hdepth Ha Hf. apply Z.ltb_ge in Hdepth.
  rewrite filter_path_eq, Hdepth. cbv zeta. rewrite Ha, Hf. repeat split.
Qed.

Lemma found_when_matched_witness :
  fst (filter_path hit finder) = false
  /\ found (snd (filter_path hit finder)) = [hit].
Proof.
  destruct (found_when_matched hit finder) as (Hr & Hf & _).
  - vm_compute. discriminate.
  - vm_compute. reflexivity.
  - vm_compute. reflexivity.
  - split; [exact Hr | exact Hf].
Defined.

(** A path past the depth gate that matches neither avoid nor find and
    misses a restriction that is in force is appended to [deviating],
    and [filter_path] returns [False], however often the path repeats:
    the restrict check comes before the loop check. *)
Theorem deviating_before_looping (p : Path) (e : Explorer) :
  _min_depth e <= len (addr_backtrace p) ->
  _match (_avoid e) p (imark_set_of p) = false ->
  _match (_find e) p (imark_set_of p) = false ->
  restrict_in_force (_restrict e) = true ->
  _match (_restrict e) p (imark_set_of p) = false ->
  fst (filter_path p e) = false
  /\ deviating (snd (filter_path p e)) = deviating e ++ [p]
  /\ looping (snd (filter_path p e)) = looping e
  /\ found (snd (filter_path p e)) = found e
  /\ avoided (snd (filter_path p e)) = avoided e.
Proof.
  intros Hdepth Ha Hf Hon Hr. apply Z.ltb_ge in Hdepth.
  rewrite filter_path_eq, Hdepth. cbv zeta. rewrite Ha, Hf, Hon, Hr.
  repeat split.
Qed.

Lemma deviating_before_looping_witness :
  _max_repeats restricted <= detect_loops stray_spinning (_max_repeats restricted)
  /\ deviating (snd (filter_path stray_spinning restricted)) = [stray_spinning]
  /\ looping (snd (filter_path stray_spinning restricted)) = [].
Proof.
  split; [vm_compute; discriminate|].
  destruct (deviating_before_looping stray_spinning restricted)
    as (_ & Hd & Hl & _).
  - vm_compute. discriminate.
  - vm_compute. reflexivity.
  - vm_compute. reflexivity.
  - vm_compute. reflexivity.
  - vm_compute. reflexivity.
  - split; [exact Hd | exact Hl].
Defined.

(** A path past the depth gate on which no check fires is kept:
    [filter_path] returns [True] and the only change to the explorer is
    the counting of the step set.  (The other [True], below the depth
    gate, counts nothing.) *)
Theorem kept_but_counted (p : Path) (e : Explorer) :
  _min_depth e <= len (addr_backtrace p) ->
  _match (_avoid e) p (imark_set_of p) = false ->
  _match (_find e) p (imark_set_of p) = false ->
  restrict_in_force (_restrict e)
    && negb (_match (_restrict e) p (imark_set_of p)) = false ->
  detect_loops p (_max_repeats e) < _max_repeats e ->
  filter_path p e
  = (true, set_counter (record (imark_set_of p) (_instruction_counter e)) e).
Proof.
  intros Hdepth Ha Hf Hr Hl. apply Z.ltb_ge in Hdepth.
  apply Z.leb_gt in Hl.
  rewrite filter_path_eq, Hdepth. cbv zeta. rewrite Ha, Hf, Hr, Hl.
  reflexivity.
Qed.

Lemma kept_but_counted_witness :
  fst (filter_path at_4000 finder) = true
  /\ counter_get (_instruction_counter (snd (filter_path at_4000 finder)))
       (KAddr 16384) = 1.
Proof.
  assert (H : filter_path at_4000 finder
              = (true, set_counter (record (imark_set_of at_4000)
                                      (_instruction_counter finder)) finder)).
  { apply (kept_but_counted at_4000 finder).
    - vm_compute. discriminate.
    - vm_compute. reflexivity.
    - vm_compute. reflexivity.
    - vm_compute. reflexivity.
    - vm_compute. reflexivity. }
  rewrite H. split; vm_compute; reflexivity.
Defined.

(** The verdict of [filter_path] on a path is fixed by the depth floor,
    the three criteria and the repeat limit: the counter, the buckets and
    the active list of the explorer have no say in it. *)
Theorem verdict_from_config (p : Path) (e1 e2 : Explorer) :
  _min_depth e1 = _min_depth e2 ->
  _avoid e1 = _avoid e2 ->
  _find e1 = _find e2 ->
  _restrict e1 = _restrict e2 ->
  _max_repeats e1 = _max_repeats e2 ->
  fst (filter_path p e1) = fst (filter_path p e2).
Proof.
  intros Hd Ha Hf Hr Hm.
  rewrite (filter_path_eq p e1), (filter_path_eq p e2), Hd, Ha, Hf, Hr, Hm.
  destruct (len (addr_backtrace p) <? _min_depth e2); [reflexivity|].
  cbv zeta.
  destruct (_match (_avoid e2) p (imark_set_of p)); [reflexivity|].
  destruct (_match (_find e2) p (imark_set_of p)); [reflexivity|].
  destruct (restrict_in_force (_restrict e2)
            && negb (_match (_restrict e2) p (imark_set_of p)));
    [reflexivity|].
  destruct (_max_repeats e2 <=? detect_loops p (_max_repeats e2));
    reflexivity.
Qed.

Lemma verdict_from_config_witness :
  snd (filter_path hit finder) ≠ finder
  /\ fst (filter_path hit (snd (filter_path hit finder)))
     = fst (filter_path hit finder).
Proof.
  split.
  - intros Heq. apply (f_equal found) in Heq. vm_compute in Heq.
    discriminate.
  - apply (verdict_from_config hit (snd (filter_path hit finder)) finder);
      vm_compute; reflexivity.
Defined.

(** [filter_path] never assigns the configuration and never touches the
    active list: taking a rejected path out of [active] is left to the
    caller. *)
Theorem config_and_active_kept (p : Path) (e : Explorer) :
  same_config e (snd (filter_path p e))
  /\ active (snd (filter_path p e)) = active e.
Proof.
  unfold same_config. ways_out p e; repeat split.
Qed.

End Outcomes.

(** ** Invariants over a whole exploration *)

Module Runs.

Lemma same_config_refl e : same_config e e.
Proof. unfold same_config. repeat split. Qed.

Lemma same_config_trans e1 e2 e3 :
  same_config e1 e2 -> same_config e2 e3 -> same_config e1 e3.
Proof.
  unfold same_config.
  intros (A1 & A2 & A3 & A4 & A5 & A6 & A7 & A8 & A9 & A10)
         (B1 & B2 & B3 & B4 & B5 & B6 & B7 & B8 & B9 & B10).
  repeat split; congruence.
Qed.

Lemma perform_same_config e ev : same_config e (perform e ev).
Proof.
  unfold same_config. destruct ev as [p|a]; simpl; [|repeat split].
  Outcomes.ways_out p e; repeat split.
Qed.

Lemma run_same_config evs : forall e, same_config e (run evs e).
Proof.
  induction evs as [|ev evs IH]; intros e; simpl.
  - apply same_config_refl.
  - eapply same_config_trans; [apply perform_same_config | apply IH].
Qed.

Lemma perform_prefix e ev :
  found e `prefix_of` found (perform e ev)
  /\ avoided e `prefix_of` avoided (perform e ev)
  /\ deviating e `prefix_of` deviating (perform e ev)
  /\ looping e `prefix_of` looping (perform e ev).
Proof.
  destruct ev as [p|a]; simpl; [|repeat split; reflexivity].
  Outcomes.ways_out p e; simpl;
    repeat split; try reflexivity; apply prefix_app_r; reflexivity.
Qed.

(** The four buckets are append-only over any exploration: whatever was
    filed stays filed, at the same position, however many paths are
    classified (and however the active list changes) afterwards. *)
Theorem buckets_append_only (evs : list event) (e : Explorer) :
  found e `prefix_of` found (run evs e)
  /\ avoided e `prefix_of` avoided (run evs e)
  /\ deviating e `prefix_of` deviating (run evs e)
  /\ looping e `prefix_of` looping (run evs e).
Proof.
  revert e. induction evs as [|ev evs IH]; intros e; simpl.
  - repeat split; reflexivity.
  - destruct (perform_prefix e ev) as (Hf & Ha & Hd & Hl).
    destruct (IH (perform e ev)) as (Hf' & Ha' & Hd' & Hl').
    repeat split; etransitivity; eassumption.
Qed.

Lemma perform_filed e ev : filed_rightly e -> filed_rightly (perform e ev).
Proof.
  intros (Ha & Hf & Hd & Hl).
  destruct ev as [p|a]; simpl; [|repeat split; assumption].
  unfold filed_rightly. Outcomes.ways_out p e; simpl.
  - repeat split; assumption.
  - repeat split; try assumption.
    apply Forall_app. split; [exact Ha|].
    constructor; [|constructor].
    unfold avoided_ok, past_gate. simpl. rewrite Hgate. split; [reflexivity|].
    exact Havoid.
  - repeat split; try assumption.
    apply Forall_app. split; [exact Hf|].
    constructor; [|constructor].
    unfold found_ok, past_gate. simpl. rewrite Hgate.
    repeat split; assumption.
  - repeat split; try assumption.
    apply Forall_app. split; [exact Hd|].
    constructor; [|constructor].
    unfold deviating_ok, past_gate. simpl. rewrite Hgate.
    apply andb_true_iff in Hrestrict as [Hon Hmiss].
    apply negb_true_iff in Hmiss.
    repeat split; assumption.
  - repeat split; try assumption.
    apply Forall_app. split; [exact Hl|].
    constructor; [|constructor].
    unfold looping_ok, past_gate. simpl. rewrite Hgate.
    apply Z.leb_le in Hloop.
    repeat split; assumption.
  - repeat split; assumption.
Qed.

Lemma run_filed evs : forall e, filed_rightly e -> filed_rightly (run evs e).
Proof.
  induction evs as [|ev evs IH]; intros e He; simpl; [exact He|].
  apply IH, perform_filed, He.
Qed.

(** Starting from a new explorer, after any exploration every bucket
    holds only paths that earned it under the (unchanged) configuration:
    each avoided path is past the depth floor and matches avoid; each
    found path matches find and not avoid; each deviating path matches
    neither and misses a restriction in force; each looping path passes
    all three checks and repeats at least [max_repeats] times. *)
Theorem buckets_hold_what_they_say
        (starts : list Path) (a : init_args) (evs : list event) :
  filed_rightly (run evs (__init__ starts a)).
Proof.
  apply run_filed. unfold filed_rightly. simpl. repeat split; constructor.
Qed.

(** With nothing to find and nothing to avoid (empty collections, the
    defaults of the constructor) no exploration ever files a path as
    found or avoided. *)
Theorem nothing_to_find_nothing_found
        (starts : list Path) (a : init_args) (evs : list event) :
  arg_find a = ArgIterable [] ->
  arg_avoid a = ArgIterable [] ->
  found (run evs (__init__ starts a)) = []
  /\ avoided (run evs (__init__ starts a)) = [].
Proof.
  intros Hfind Havoid.
  destruct (run_filed evs (__init__ starts a)) as (Ha & Hf & _ & _).
  { unfold filed_rightly. simpl. repeat split; constructor. }
  destruct (run_same_config evs (__init__ starts a)) as (Cf & Ca & _).
  assert (Hnone : forall p X, _match (CSet ∅) p X = false).
  { intros p X. destruct (_match (CSet ∅) p X) eqn:Hm; [|reflexivity].
    apply match_set_elem in Hm as (k & _ & Hk).
    apply not_elem_of_empty in Hk. contradiction. }
  split.
  - destruct (found (run evs (__init__ starts a))) as [|p l]; [reflexivity|].
    apply Forall_cons in Hf as [(_ & _ & Hm) _].
    assert (Hempty : _find (__init__ starts a) = CSet ∅)
      by (simpl; rewrite Hfind; reflexivity).
    rewrite Cf, Hempty, Hnone in Hm. discriminate.
  - destruct (avoided (run evs (__init__ starts a))) as [|p l]; [reflexivity|].
    apply Forall_cons in Ha as [(_ & Hm) _].
    assert (Hempty : _avoid (__init__ starts a) = CSet ∅)
      by (simpl; rewrite Havoid; reflexivity).
    rewrite Ca, Hempty, Hnone in Hm. discriminate.
Qed.

Lemma nothing_to_find_nothing_found_witness :
  found (run later (__init__ [at_1000] default_args)) = []
  /\ avoided (run later (__init__ [at_1000] default_args)) = [].
Proof.
  apply (nothing_to_find_nothing_found [at_1000] default_args later);
    reflexivity.
Defined.

End Runs.

(** ** Counts, tallies and the comparator *)

Module Tallies.

Lemma visits_nonneg d k evs : 0 <= visits d k evs.
Proof.
  induction evs as [|[p|a] evs IH]; simpl; [lia| |exact IH].
  destruct (past_gate d p && bool_decide (k ∈ imark_set_of p)); lia.
Qed.

Lemma perform_count e ev k :
  counter_get (_instruction_counter (perform e ev)) k
  = counter_get (_instruction_counter e) k + visits (_min_depth e) k [ev].
Proof.
  destruct ev as [p|a]; simpl; [|lia].
  unfold past_gate.
  assert (Hrec : counter_get (record (imark_set_of p) (_instruction_counter e)) k
                 = counter_get (_instruction_counter e) k
                   + (if bool_decide (k ∈ imark_set_of p) then 1 else 0)).
  { rewrite counter_get_record.
    destruct (decide (k ∈ imark_set_of p)) as [Hin|Hnin].
    - rewrite bool_decide_eq_true_2 by exact Hin. reflexivity.
    - rewrite bool_decide_eq_false_2 by exact Hnin. reflexivity. }
  Outcomes.ways_out p e; simpl; try lia; rewrite Hrec;
    destruct (bool_decide (k ∈ imark_set_of p)); lia.
Qed.

Lemma run_count k : forall evs e,
  counter_get (_instruction_counter (run evs e)) k
  = counter_get (_instruction_counter e) k + visits (_min_depth e) k evs.
Proof.
  induction evs as [|ev evs IH]; intros e.
  - simpl. lia.
  - change (run (ev :: evs) e) with (run evs (perform e ev)).
    rewrite IH, perform_count.
    destruct (Runs.perform_same_config e ev)
      as (_ & _ & _ & _ & _ & Hmin & _).
    rewrite Hmin. destruct ev as [p|a]; simpl; lia.
Qed.

(** After any exploration the count of a key is its count before plus
    the number of classified paths that were past the depth floor and had
    the key in their step set; in particular counts never go down, and
    paths below the depth floor leave no trace. *)
Theorem count_is_number_of_visits (evs : list event) (e : Explorer) (k : key) :
  counter_get (_instruction_counter (run evs e)) k
  = counter_get (_instruction_counter e) k + visits (_min_depth e) k evs
  /\ counter_get (_instruction_counter e) k
     <= counter_get (_instruction_counter (run evs e)) k.
Proof.
  split; [apply run_count|].
  rewrite run_count. pose proof (visits_nonneg (_min_depth e) k evs). lia.
Qed.

Lemma bucketed_step p e :
  bucketed (snd (filter_path p e))
  = bucketed e + (if fst (filter_path p e) then 0 else 1).
Proof.
  unfold bucketed, len.
  Outcomes.ways_out p e; simpl; rewrite ?length_app; simpl; lia.
Qed.

(** Classifying a batch of paths one after the other gives one verdict
    per path, and the four buckets together grow by exactly the number
    of [False] verdicts: no rejected path is lost and none is filed
    twice. *)
Theorem batch_conservation (ps : list Path) (e : Explorer) :
  length (fst (filter_each ps e)) = length ps
  /\ bucketed (snd (filter_each ps e))
     = bucketed e + rejected (fst (filter_each ps e)).
Proof.
  revert e. induction ps as [|p ps IH]; intros e.
  - simpl. unfold rejected, len. simpl. split; [reflexivity|lia].
  - simpl. unfold bind, ret.
    destruct (filter_path p e) as [r e1] eqn:Hstep.
    destruct (filter_each ps e1) as [rs e2] eqn:Hrest.
    destruct (IH e1) as [Hlen Hsum]. rewrite Hrest in Hlen, Hsum.
    simpl in Hlen, Hsum. simpl. split; [rewrite Hlen; reflexivity|].
    pose proof (bucketed_step p e) as Hone. rewrite Hstep in Hone.
    simpl in Hone. rewrite Hsum, Hone.
    unfold rejected, len. destruct r; simpl; lia.
Qed.

(** [path_comparator] is a sound [cmp] function for sorting: swapping
    its arguments negates it, and comparisons add up along a chain (so
    the order it induces is total and transitive, with ties between
    paths whose last addresses have equal counts). *)
Theorem comparator_is_consistent (e : Explorer) (x y z : Path) :
  path_comparator e x y = - path_comparator e y x
  /\ path_comparator e x z = path_comparator e x y + path_comparator e y z
  /\ (path_comparator e x y = 0
      <-> counter_get (_instruction_counter e) (KAddr (last_addr x))
          = counter_get (_instruction_counter e) (KAddr (last_addr y))).
Proof.
  unfold path_comparator. repeat split; lia.
Qed.

(** Classifying a path (past the depth floor) whose step set covers the
    last address of [x] but not that of [y] moves [x] one place back
    against [y] in the order of [path_comparator]. *)
Theorem visited_sorts_later (p x y : Path) (e : Explorer) :
  _min_depth e <= len (addr_backtrace p) ->
  KAddr (last_addr x) ∈ imark_set_of p ->
  KAddr (last_addr y) ∉ imark_set_of p ->
  path_comparator (snd (filter_path p e)) x y = path_comparator e x y + 1.
Proof.
  intros Hdepth Hx Hy. unfold path_comparator.
  pose proof (perform_count e (Classify p) (KAddr (last_addr x))) as Cx.
  pose proof (perform_count e (Classify p) (KAddr (last_addr y))) as Cy.
  simpl in Cx, Cy. unfold past_gate in Cx, Cy.
  apply Z.ltb_ge in Hdepth. rewrite Hdepth in Cx, Cy. simpl in Cx, Cy.
  rewrite bool_decide_eq_true_2 in Cx by exact Hx.
  rewrite bool_decide_eq_false_2 in Cy by exact Hy.
  lia.
Qed.

Lemma visited_sorts_later_witness :
  path_comparator finder at_1000 at_4000 = 0
  /\ path_comparator (snd (filter_path hit finder)) at_1000 at_4000 = 1.
Proof.
  split; [vm_compute; reflexivity|].
  rewrite (visited_sorts_later hit at_1000 at_4000 finder).
  - vm_compute. reflexivity.
  - vm_compute. discriminate.
  - apply (bool_decide_eq_true_1 (KAddr 4096 ∈ imark_set_of hit)).
    vm_compute. reflexivity.
  - apply (bool_decide_eq_false_1 (KAddr 16384 ∈ imark_set_of hit)).
    vm_compute. reflexivity.
Defined.

(** A new explorer is done before any path is classified exactly when it
    was given no start path or one of its thresholds is not positive
    (a threshold of zero is met by an empty bucket). *)
Theorem fresh_done_iff (starts : list Path) (a : init_args) :
  fst (done (__init__ starts a)) = true
  <-> starts = []
      \/ (exists n, arg_num_find a = Some n /\ n <= 0)
      \/ (exists n, arg_num_avoid a = Some n /\ n <= 0)
      \/ (exists n, arg_num_deviate a = Some n /\ n <= 0)
      \/ (exists n, arg_num_loop a = Some n /\ n <= 0).
Proof.
  rewrite Termination.done_eq. cbn [fst]. unfold threshold_met. simpl.
  rewrite !orb_true_iff, Termination.len_zero_iff,
    !Termination.reached_iff.
  unfold len. simpl. tauto.
Qed.

End Tallies.
